(** * Escape-time evaluation of the quadratic map: julia.py

    A shallow embedding of [Julia.get_pixel] and [Julia.__init__] together
    with the parts of the Python runtime they run on (exceptions, [range],
    [zip], a generator, [numpy.vectorize]).

    Python is duck typed: [get_pixel] runs on any value that supports
    [z ** 2 + c] and [abs(z) >= 2].  The numbers are therefore an interface
    ([Number]); two instances are given, Python's unbounded [int] and an
    idealised [complex]. *)

From Stdlib Require Import ZArith QArith Qabs List Bool Lia Lqa.
Import ListNotations.

Set Implicit Arguments.

(** ** Exceptions and results *)

Inductive exn : Type :=
| OverflowError       (* abs() of a complex whose magnitude is no double *)
| UnboundLocalError   (* a local read before any assignment *)
| ValueError          (* numpy.vectorize on a size 0 input *)
| InvalidParameter.   (* the grid generator's error *)

Inductive result (A : Type) : Type :=
| Ok (a : A)
| Raise (e : exn).

Arguments Ok {A} a.
Arguments Raise {A} e.

Definition bind {A B : Type} (r : result A) (k : A -> result B) : result B :=
  match r with
  | Ok a => k a
  | Raise e => Raise e
  end.

Notation "x <- r ;; k" := (bind r (fun x => k))
  (at level 61, r at next level, right associativity).

(** Left to right evaluation of [f] over a list; the first exception wins. *)
Fixpoint mapM {A B : Type} (f : A -> result B) (l : list A) : result (list B) :=
  match l with
  | [] => Ok []
  | a :: l' => b <- f a ;; bs <- mapM f l' ;; Ok (b :: bs)
  end.

(** [range(n)]: the integers 0, 1, ..., n-1. *)
Definition py_range (n : nat) : list Z := map Z.of_nat (seq 0 n).

(** [max_iter], the iteration budget of the specification (default). *)
Definition max_iter : Z := 256.

(** ** The numbers [get_pixel] computes with *)

Class Number (C : Type) : Type := {
  (** [z ** 2 + c], the step of the quadratic map *)
  quad : C -> C -> C;
  (** [abs(z) >= 2]; [abs] of a complex may raise *)
  abs_ge_2 : C -> result bool;
  (** [-z] *)
  neg : C -> C
}.

Section Evaluator.

Context {C : Type} {num : Number C}.

(** *** The generator [quadratic_map] *)

(** A generator object is either fresh or suspended at its [yield]. *)
Inductive gen : Type :=
| Created (z0 : C)
| Suspended (z : C).

(** Modelled from the spec: [quadratic_map] is imported from the module
    [mandelbrot], which is not among the sources.  It is the lazily
    produced infinite sequence of iterates z_0 = z0, z_{n+1} = z_n^2 + c:
    [z = z0; while True: yield z; z = z ** 2 + c]. *)
Definition quadratic_map (c z0 : C) : gen := Created z0.

(** [next(g)]: the value yielded, and the generator afterwards. *)
Definition gen_next (c : C) (g : gen) : C * gen :=
  match g with
  | Created z0 => (z0, Suspended z0)
  | Suspended z => let z' := quad z c in (z', Suspended z')
  end.

(** *** [Julia.get_pixel] *)

(** [for n, z in zip(range(256), quadratic_map(c, z0)):
       if abs(z) >= 2: break]
    [ns] is what is left of the range, [g] the generator, [n] the binding
    of the loop variable [n] ([None] before the first iteration).  [zip]
    asks the range first and stops, without resuming the generator, when it
    is exhausted.  The loop returns the binding of [n] it ends with. *)
Fixpoint for_loop (c : C) (ns : list Z) (g : gen) (n : option Z)
  : result (option Z) :=
  match ns with
  | [] => Ok n
  | i :: ns' =>
      let (z, g') := gen_next c g in
      b <- abs_ge_2 z ;;
      if b then Ok (Some i) else for_loop c ns' g' (Some i)
  end.

(** [return n] *)
Definition return_local (n : option Z) : result Z :=
  match n with
  | Some v => Ok v
  | None => Raise UnboundLocalError
  end.

Definition get_pixel (c z0 : C) : result Z :=
  n <- for_loop c (py_range 256) (quadratic_map c z0) None ;;
  return_local n.

(** *** The recurrence of the specification *)

(** z_0 = z0, z_{k+1} = z_k^2 + c. *)
Fixpoint orbit (c z0 : C) (k : nat) : C :=
  match k with
  | O => z0
  | S k' => quad (orbit c z0 k') c
  end.

(** The generator once it has yielded [k] values. *)
Definition gen_at (c z0 : C) (k : nat) : gen :=
  match k with
  | O => Created z0
  | S k' => Suspended (orbit c z0 k')
  end.

(** [n] is the first index at which the test [abs(z) >= 2] holds. *)
Definition first_escape (c z0 : C) (n : nat) : Prop :=
  abs_ge_2 (orbit c z0 n) = Ok true /\
  forall k, (k < n)%nat -> abs_ge_2 (orbit c z0 k) = Ok false.

(** The test fails at each of the first [budget] iterates. *)
Definition never_escapes (c z0 : C) (budget : nat) : Prop :=
  forall k, (k < budget)%nat -> abs_ge_2 (orbit c z0 k) = Ok false.

(** [abs] raises at none of the first [budget] iterates. *)
Definition abs_defined (c z0 : C) (budget : nat) : Prop :=
  forall k, (k < budget)%nat -> exists b, abs_ge_2 (orbit c z0 k) = Ok b.

(** [abs] raises at none of the iterates the loop tests: the iterate [k] is
    tested when [k] is below 256 and the test has failed at every iterate
    before it. *)
Definition abs_defined_on_tested (c z0 : C) : Prop :=
  forall k, (k < 256)%nat -> never_escapes c z0 k ->
    exists b, abs_ge_2 (orbit c z0 k) = Ok b.

(** The same three, decided by running the recurrence. *)
Definition stays_at (c z0 : C) (k : nat) : bool :=
  match abs_ge_2 (orbit c z0 k) with
  | Ok false => true
  | _ => false
  end.

Definition escapes_at (c z0 : C) (k : nat) : bool :=
  match abs_ge_2 (orbit c z0 k) with
  | Ok true => true
  | _ => false
  end.

Definition defined_at (c z0 : C) (k : nat) : bool :=
  match abs_ge_2 (orbit c z0 k) with
  | Ok _ => true
  | Raise _ => false
  end.

Definition never_escapes_b (c z0 : C) (budget : nat) : bool :=
  forallb (stays_at c z0) (seq 0 budget).

Definition first_escape_b (c z0 : C) (n : nat) : bool :=
  escapes_at c z0 n && never_escapes_b c z0 n.

Definition abs_defined_b (c z0 : C) (budget : nat) : bool :=
  forallb (defined_at c z0) (seq 0 budget).

(** *** The loop as a state machine *)

(** A configuration of a call of [get_pixel]: inside the loop, with what
    is left of the range, the generator and the binding of [n]; or returned
    (with a value or an exception). *)
Inductive config : Type :=
| Running (ns : list Z) (g : gen) (n : option Z)
| Returned (r : result Z).

Inductive step (c : C) : config -> config -> Prop :=
| step_exhausted g n :
    step c (Running [] g n) (Returned (return_local n))
| step_continue i ns g n z g' :
    gen_next c g = (z, g') -> abs_ge_2 z = Ok false ->
    step c (Running (i :: ns) g n) (Running ns g' (Some i))
| step_break i ns g n z g' :
    gen_next c g = (z, g') -> abs_ge_2 z = Ok true ->
    step c (Running (i :: ns) g n) (Returned (Ok i))
| step_raise i ns g n z g' e :
    gen_next c g = (z, g') -> abs_ge_2 z = Raise e ->
    step c (Running (i :: ns) g n) (Returned (Raise e)).

Inductive steps (c : C) : config -> config -> Prop :=
| steps_refl s : steps c s s
| steps_step s1 s2 s3 : step c s1 s2 -> steps c s2 s3 -> steps c s1 s3.

(** A call [get_pixel(c, z0)] that ends with [r]. *)
Definition evaluates (c z0 : C) (r : result Z) : Prop :=
  steps c (Running (py_range 256) (quadratic_map c z0) None) (Returned r).

(** *** [Julia.__init__] *)

(** [numpy.vectorize(f)(c, g)] with a scalar [c] and a two-dimensional
    [g]: [f(c, g[i][j])] at every index, in row-major order.  Without
    [otypes] it refuses an input of size 0. *)
Definition size (g : list (list C)) : nat := length (concat g).

Definition vectorize (f : C -> C -> result Z) (c : C) (g : list (list C))
  : result (list (list Z)) :=
  match size g with
  | O => Raise ValueError
  | S _ => mapM (mapM (f c)) g
  end.

(** The two attributes [__init__] sets. *)
Record Julia : Type := mkJulia {
  grid : list (list C);
  pixels : list (list Z)
}.

(** [complex_grid] is imported from [mandelbrot] and not among the
    sources: [__init__] is taken over any grid generator, and over any type
    [E] of extents. *)
Variable E : Type.
Variable complex_grid : C -> E -> Z -> result (list (list C)).

Definition Julia_init (c_value centre : C) (extent : E) (resolution : Z)
  : result Julia :=
  g <- complex_grid centre extent resolution ;;
  p <- vectorize get_pixel c_value g ;;
  Ok {| grid := g; pixels := p |}.

End Evaluator.

(** ** Python's [int] *)

#[export] Instance PyInt : Number Z := {
  quad z c := (z ^ 2 + c)%Z;
  abs_ge_2 z := Ok (2 <=? Z.abs z)%Z;
  neg z := (- z)%Z
}.

(** ** Python's [complex], idealised

    A pair of rationals.  Arithmetic is exact: rounding is not modelled.
    What is kept of the doubles is their range: CPython's [abs] of a complex
    with finite parts raises [OverflowError] ("absolute value too large")
    when the magnitude is too large for a double, that is when it rounds to
    infinity, from 2^1024 - 2^970 on.  Where rounding decides the test (a
    magnitude within an ulp of 2) the doubles may answer otherwise; nan and
    the infinities are not among these numbers. *)

Definition complex : Type := (Q * Q)%type.

(** The largest finite double, (2^53 - 1) * 2^971. *)
Definition dbl_max : Q := inject_Z ((2 ^ 53 - 1) * 2 ^ 971).

(** The least magnitude that rounds to infinity. *)
Definition dbl_overflow : Q := inject_Z (2 ^ 1024 - 2 ^ 970).

(** A complex with finite parts. *)
Definition finite (z : complex) : bool :=
  Qle_bool (Qabs (fst z)) dbl_max && Qle_bool (Qabs (snd z)) dbl_max.

Definition norm2 (z : complex) : Q := fst z * fst z + snd z * snd z.

Definition cmul (z w : complex) : complex :=
  (fst z * fst w - snd z * snd w, fst z * snd w + snd z * fst w).

Definition cadd (z w : complex) : complex := (fst z + fst w, snd z + snd w).

(** Fractions are kept in lowest terms. *)
Definition cred (z : complex) : complex := (Qred (fst z), Qred (snd z)).

#[export] Instance PyComplex : Number complex := {
  quad z c := cred (cadd (cmul z z) c);
  abs_ge_2 z :=
    if Qle_bool (dbl_overflow * dbl_overflow) (norm2 z)
    then Raise OverflowError
    else Ok (Qle_bool 4 (norm2 z));
  neg z := (- fst z, - snd z)
}.

(** ** The grid generator *)

(** [n] evenly spaced samples of the closed interval [lo, hi]. *)
Definition linspace (lo hi : Q) (n : nat) : list Q :=
  map (fun k => lo + inject_Z (Z.of_nat k) * ((hi - lo) / inject_Z (Z.of_nat n - 1)))
      (seq 0 n).

(** One row for each [y], one column for each [x]. *)
Definition meshgrid (xs ys : list Q) : list (list complex) :=
  map (fun y => map (fun x => (x, y)) xs) ys.

(** Modelled from the spec: the grid generator ([build_grid] in the
    specification, [complex_grid] of the module [mandelbrot] in the code) is
    not among the sources.  It rejects [resolution < 1] and [extent <= 0]
    with [InvalidParameter] before anything else; otherwise it samples the
    closed square of side [extent] around [centre] uniformly, endpoints
    included, rows along the imaginary axis (a larger row index is a larger
    imaginary part) and columns along the real axis. *)
Definition build_grid (centre : complex) (extent : Q) (resolution : Z)
  : result (list (list complex)) :=
  if (resolution <? 1)%Z || Qle_bool extent 0 then Raise InvalidParameter
  else
    let n := Z.to_nat resolution in
    let xs := linspace (fst centre - extent / 2) (fst centre + extent / 2) n in
    let ys := linspace (snd centre - extent / 2) (snd centre + extent / 2) n in
    Ok (meshgrid xs ys).

(** [Julia(c_value, centre, extent, resolution)] on that generator. *)
Definition Julia_new : complex -> complex -> Q -> Z -> result (Julia (C := complex)) :=
  Julia_init build_grid.

(** *** What the claims about the grid speak of *)

(** Equality of complex numbers, part by part. *)
Definition ceq (z w : complex) : Prop := fst z == fst w /\ snd z == snd w.

(** The real and the imaginary parts that occur in a grid. *)
Definition reals (g : list (list complex)) : list Q := map fst (concat g).
Definition imags (g : list (list complex)) : list Q := map snd (concat g).

Definition is_min (m : Q) (l : list Q) : Prop :=
  (exists x, In x l /\ x == m) /\ forall x, In x l -> m <= x.

Definition is_max (m : Q) (l : list Q) : Prop :=
  (exists x, In x l /\ x == m) /\ forall x, In x l -> x <= m.

(** The corners of the square of side [extent] around [centre], in row-major
    order: lower left, lower right, upper left, upper right. *)
Definition corners (centre : complex) (extent : Q) : list (list complex) :=
  let x0 := fst centre - extent / 2 in
  let x1 := fst centre + extent / 2 in
  let y0 := snd centre - extent / 2 in
  let y1 := snd centre + extent / 2 in
  [[(x0, y0); (x1, y0)]; [(x0, y1); (x1, y1)]].

(** A double of large magnitude: 3 * 2^1022, about 1.348e308. *)
Definition huge : Q := inject_Z (3 * 2 ^ 1022).

Definition chuge : complex := (huge, huge).

(** Some small inputs. *)
Definition czero : complex := (0, 0).
Definition cone : complex := (1, 0).
Definition cthree : complex := (3, 0).

(** ** Generator objects *)

Section Heap.

Context {C : Type} {num : Number C}.

(** A generator object of [quadratic_map]: its frame holds [c] and where the
    iteration stands.  It is mutable: [next] changes it in place. *)
Record gen_obj : Type := mkGen {
  gen_c : C;
  gen_state : @gen C
}.

(** The heap: the generator objects created so far, each at the address
    given by the order of creation.  Whatever earlier calls have left is in
    it. *)
Definition heap : Type := list gen_obj.

(** [quadratic_map(c, z0)]: a new object, and a reference to it. *)
Definition new_generator (c z0 : C) (h : heap) : nat * heap :=
  (length h, h ++ [mkGen c (quadratic_map c z0)]).

Fixpoint heap_update (h : heap) (a : nat) (o : gen_obj) : heap :=
  match h, a with
  | [], _ => []
  | _ :: t, O => o :: t
  | x :: t, S a' => x :: heap_update t a' o
  end.

(** [next] of the object at address [a]: the value yielded, and the heap
    with the object advanced.  [None] for an address without an object. *)
Definition heap_next (a : nat) (h : heap) : option (C * heap) :=
  match nth_error h a with
  | None => None
  | Some o =>
      let (z, g') := gen_next (gen_c o) (gen_state o) in
      Some (z, heap_update h a (mkGen (gen_c o) g'))
  end.

(** The loop of [get_pixel] on the generator at address [a]. *)
Fixpoint for_loop_heap (ns : list Z) (a : nat) (n : option Z) (h : heap)
  : option (result (option Z) * heap) :=
  match ns with
  | [] => Some (Ok n, h)
  | i :: ns' =>
      match heap_next a h with
      | None => None
      | Some (z, h') =>
          match abs_ge_2 z with
          | Raise e => Some (Raise e, h')
          | Ok true => Some (Ok (Some i), h')
          | Ok false => for_loop_heap ns' a (Some i) h'
          end
      end
  end.

(** A call [get_pixel(c, z0)] on a heap: the result, and the heap it
    leaves. *)
Definition get_pixel_heap (c z0 : C) (h : heap) : option (result Z * heap) :=
  let (a, h1) := new_generator c z0 h in
  match for_loop_heap (py_range 256) a None h1 with
  | None => None
  | Some (r, h2) => Some (n <- r ;; return_local n, h2)
  end.

End Heap.

(** ** The loop invariant *)

Section LoopState.

Context {C : Type} {num : Number C}.

(** The binding of [n] once [k] iterations have been started. *)
Definition last_index (k : nat) : option Z :=
  match k with
  | O => None
  | S j => Some (Z.of_nat j)
  end.

(** What holds of a configuration of the call [get_pixel(c, z0)]: inside the
    loop, [k] iterates have been tested and all failed the test, the range is
    at [k], the generator has yielded [k] values and [n] is [k - 1] (unbound
    for [k = 0]); after the loop, the result is that of [get_pixel]. *)
Definition loop_invariant (c z0 : C) (s : config) : Prop :=
  match s with
  | Running ns g n =>
      exists k, (k <= 256)%nat /\
        ns = map Z.of_nat (seq k (256 - k)) /\
        g = gen_at c z0 k /\
        n = last_index k /\
        never_escapes c z0 k
  | Returned r => r = get_pixel c z0
  end.

End LoopState.

(** ** [Julia.get_figure]: the extent of the image *)

(** Complex conjugation. *)
Definition conj (z : complex) : complex := (fst z, - snd z).

(** numpy orders complex numbers lexicographically, by real part and then by
    imaginary part. *)
Definition cle (z w : complex) : bool :=
  negb (Qle_bool (fst w) (fst z)) ||
  (Qeq_bool (fst z) (fst w) && Qle_bool (snd z) (snd w)).

(** [numpy.minimum] and [numpy.maximum] of two complex numbers. *)
Definition cminimum (z w : complex) : complex := if cle z w then z else w.
Definition cmaximum (z w : complex) : complex := if cle w z then z else w.

(** [g.min()] and [g.max()]: the reduction of the whole array; a size 0
    array has no minimum and no maximum. *)
Definition amin (g : list (list complex)) : result complex :=
  match concat g with
  | [] => Raise ValueError
  | z :: zs => Ok (fold_left cminimum zs z)
  end.

Definition amax (g : list (list complex)) : result complex :=
  match concat g with
  | [] => Raise ValueError
  | z :: zs => Ok (fold_left cmaximum zs z)
  end.

(** [grid_min, grid_max = self.grid.min(), self.grid.max()] and the
    [extent=(grid_min.real, grid_max.real, grid_min.imag, grid_max.imag)]
    that [get_figure] hands to [imshow]: left, right, bottom, top. *)
Definition figure_extent (J : Julia (C := complex)) : result (Q * Q * Q * Q) :=
  grid_min <- amin (grid J) ;;
  grid_max <- amax (grid J) ;;
  Ok (fst grid_min, fst grid_max, snd grid_min, snd grid_max).

(** The imaginary unit. *)
Definition ci : complex := (0, 1).

(** * Properties *)

(** ** The loop *)

Section EvaluatorFacts.

Context {C : Type} {num : Number C}.

Lemma gen_next_at (c z0 : C) (k : nat) :
  gen_next c (gen_at c z0 k) = (orbit c z0 k, gen_at c z0 (S k)).
Proof. destruct k; reflexivity. Qed.

(** What the loop does on the part [a, a + len) of the range, from the
    generator that has yielded [a] values: it breaks at the first index
    where the test holds, it raises what [abs] raises first, or it runs
    out and leaves the last index in [n]. *)
Lemma for_loop_cases (c z0 : C) (len a : nat) (prev : option Z) :
  let r := for_loop c (map Z.of_nat (seq a len)) (gen_at c z0 a) prev in
  (exists k, (k < len)%nat /\
     (forall j, (j < k)%nat -> abs_ge_2 (orbit c z0 (a + j)) = Ok false) /\
     abs_ge_2 (orbit c z0 (a + k)) = Ok true /\
     r = Ok (Some (Z.of_nat (a + k))))
  \/ (exists k e, (k < len)%nat /\
     (forall j, (j < k)%nat -> abs_ge_2 (orbit c z0 (a + j)) = Ok false) /\
     abs_ge_2 (orbit c z0 (a + k)) = Raise e /\
     r = Raise e)
  \/ ((forall j, (j < len)%nat -> abs_ge_2 (orbit c z0 (a + j)) = Ok false) /\
      r = Ok (match len with
              | O => prev
              | S l => Some (Z.of_nat (a + l))
              end)).
Proof.
  revert a prev. induction len as [|len IH]; intros a prev; cbn zeta.
  - right; right. split; [intros j Hj; lia | reflexivity].
  - cbn [seq map for_loop]. rewrite gen_next_at.
    destruct (abs_ge_2 (orbit c z0 a)) as [[|]|e] eqn:Ha; cbn [bind].
    + left. exists 0%nat. rewrite Nat.add_0_r.
      repeat split; [lia | intros j Hj; lia | exact Ha].
    + destruct (IH (S a) (Some (Z.of_nat a)))
        as [(k & Hk & Hlt & Hat & Hr) | [(k & e & Hk & Hlt & Hat & Hr) | (Hall & Hr)]].
      * left. exists (S k). rewrite Nat.add_succ_r.
        repeat split; [lia | | exact Hat | exact Hr].
        intros [|j] Hj; [rewrite Nat.add_0_r; exact Ha|].
        rewrite Nat.add_succ_r. apply Hlt. lia.
      * right; left. exists (S k), e. rewrite Nat.add_succ_r.
        repeat split; [lia | | exact Hat | exact Hr].
        intros [|j] Hj; [rewrite Nat.add_0_r; exact Ha|].
        rewrite Nat.add_succ_r. apply Hlt. lia.
      * right; right. split.
        -- intros [|j] Hj; [rewrite Nat.add_0_r; exact Ha|].
           rewrite Nat.add_succ_r. apply Hall. lia.
        -- rewrite Hr. destruct len as [|l].
           ++ rewrite Nat.add_0_r. reflexivity.
           ++ rewrite Nat.add_succ_r. reflexivity.
    + right; left. exists 0%nat, e. rewrite Nat.add_0_r.
      repeat split; [lia | intros j Hj; lia | exact Ha].
Qed.

(** The three ways a call of [get_pixel] ends. *)
Lemma get_pixel_cases (c z0 : C) :
  (exists k, (k < 256)%nat /\ first_escape c z0 k /\
     get_pixel c z0 = Ok (Z.of_nat k))
  \/ (exists k e, (k < 256)%nat /\
     (forall j, (j < k)%nat -> abs_ge_2 (orbit c z0 j) = Ok false) /\
     abs_ge_2 (orbit c z0 k) = Raise e /\
     get_pixel c z0 = Raise e)
  \/ (never_escapes c z0 256 /\ get_pixel c z0 = Ok 255%Z).
Proof.
  unfold get_pixel, py_range, quadratic_map.
  change (Created z0) with (gen_at c z0 0).
  destruct (for_loop_cases c z0 256 0 None)
    as [(k & Hk & Hlt & Hat & Hr) | [(k & e & Hk & Hlt & Hat & Hr) | (Hall & Hr)]];
    cbn zeta in Hr; rewrite Hr; cbn [bind return_local].
  - left. exists k. repeat split; assumption.
  - right; left. exists k, e. repeat split; assumption.
  - right; right. split; [exact Hall | reflexivity].
Qed.

(** The boolean checks decide the predicates. *)
Lemma forallb_seq_below (p : nat -> bool) (n : nat) :
  forallb p (seq 0 n) = true <-> forall k, (k < n)%nat -> p k = true.
Proof.
  rewrite forallb_forall. split.
  - intros H k Hk. apply H. apply in_seq. lia.
  - intros H k Hk. apply in_seq in Hk. apply H. lia.
Qed.

Lemma never_escapes_b_spec (c z0 : C) (budget : nat) :
  never_escapes_b c z0 budget = true <-> never_escapes c z0 budget.
Proof.
  unfold never_escapes_b, never_escapes. rewrite forallb_seq_below.
  split; intros H k Hk; specialize (H k Hk); unfold stays_at in *.
  - destruct (abs_ge_2 (orbit c z0 k)) as [[|]|e]; congruence.
  - rewrite H. reflexivity.
Qed.

Lemma first_escape_b_spec (c z0 : C) (n : nat) :
  first_escape_b c z0 n = true <-> first_escape c z0 n.
Proof.
  unfold first_escape_b, first_escape.
  rewrite andb_true_iff, never_escapes_b_spec. unfold never_escapes, escapes_at.
  split; intros [H1 H2]; split; try assumption.
  - destruct (abs_ge_2 (orbit c z0 n)) as [[|]|e]; congruence.
  - rewrite H1. reflexivity.
Qed.

Lemma abs_defined_b_spec (c z0 : C) (budget : nat) :
  abs_defined_b c z0 budget = true <-> abs_defined c z0 budget.
Proof.
  unfold abs_defined_b, abs_defined. rewrite forallb_seq_below.
  split; intros H k Hk; specialize (H k Hk); unfold defined_at in *.
  - destruct (abs_ge_2 (orbit c z0 k)) as [b|e]; [exists b; reflexivity | discriminate].
  - destruct H as [b ->]. reflexivity.
Qed.

(** X14.  An exception of [get_pixel] is an exception that [abs] raised at
    one of the iterates: the loop has no failure of its own, [n] is bound
    when it is returned. *)
Lemma get_pixel_raises_only_abs (c z0 : C) (e : exn) :
  get_pixel c z0 = Raise e ->
  exists k, (k < 256)%nat /\ abs_ge_2 (orbit c z0 k) = Raise e.
Proof.
  intros Hr.
  destruct (get_pixel_cases c z0)
    as [(k & _ & _ & Hk) | [(k & e' & Hk & _ & Hat & Hp) | (_ & Hp)]];
    try congruence.
  exists k. split; [exact Hk | congruence].
Qed.

(** *** The state machine *)

Lemma step_deterministic (c : C) (s s1 s2 : config) :
  step c s s1 -> step c s s2 -> s1 = s2.
Proof.
  intros H1 H2.
  inversion H1; subst; inversion H2; subst; try reflexivity; congruence.
Qed.

Lemma returned_is_final (c : C) (r : result Z) (s : config) :
  steps c (Returned r) s -> s = Returned r.
Proof.
  intros H. inversion H as [|? ? ? Hstep]; subst; [reflexivity|].
  inversion Hstep.
Qed.

Lemma steps_deterministic (c : C) (s : config) (r1 r2 : result Z) :
  steps c s (Returned r1) -> steps c s (Returned r2) -> r1 = r2.
Proof.
  intros H1. revert r2.
  remember (Returned r1) as t eqn:Et.
  induction H1 as [s | s1 s2 s3 Hstep Hrest IH]; intros r2 H2; subst.
  - apply returned_is_final in H2. congruence.
  - inversion H2 as [|? s2' ? Hstep' Hrest']; subst.
    + inversion Hstep.
    + rewrite (step_deterministic Hstep Hstep') in IH. now apply IH.
Qed.

(** The function follows the machine. *)
Lemma for_loop_steps (c : C) (ns : list Z) (g : gen) (n : option Z) :
  steps c (Running ns g n)
        (Returned (m <- for_loop c ns g n ;; return_local m)).
Proof.
  revert g n. induction ns as [|i ns IH]; intros g n.
  - cbn. eapply steps_step; [apply step_exhausted | apply steps_refl].
  - cbn [for_loop]. destruct (gen_next c g) as [z g'] eqn:Hg.
    destruct (abs_ge_2 z) as [[|]|e] eqn:Hz; cbn [bind].
    + eapply steps_step; [eapply step_break; eassumption | apply steps_refl].
    + eapply steps_step; [eapply step_continue; eassumption | apply IH].
    + eapply steps_step; [eapply step_raise; eassumption | apply steps_refl].
Qed.

Lemma get_pixel_evaluates (c z0 : C) : evaluates c z0 (get_pixel c z0).
Proof. apply for_loop_steps. Qed.

(** *** Negated starting points *)

Lemma for_loop_neg (c z0 : C) (ns : list Z) (n : option Z) :
  (forall z, abs_ge_2 (neg z) = abs_ge_2 z) ->
  (forall z, quad (neg z) c = quad z c) ->
  for_loop c ns (Created (neg z0)) n = for_loop c ns (Created z0) n.
Proof.
  intros Habs Hquad. destruct ns as [|i ns]; [reflexivity|].
  cbn [for_loop gen_next]. rewrite Habs.
  destruct (abs_ge_2 z0) as [[|]|e]; cbn [bind]; try reflexivity.
  destruct ns as [|j ns]; [reflexivity|].
  cbn [for_loop gen_next]. rewrite Hquad. reflexivity.
Qed.

End EvaluatorFacts.

(** ** The claims about [get_pixel] *)

Section GetPixel.

Context {C : Type} {num : Number C}.

(** C1, as the code has it.  When the test [abs(z) >= 2] fails at each of
    the 256 iterates z_0, ..., z_255 that the loop looks at, [get_pixel]
    returns 255, the last index of [range(256)] (and not 256). *)
Theorem get_pixel_capped (c z0 : C) :
  never_escapes c z0 256 -> get_pixel c z0 = Ok 255%Z.
Proof.
  intros Hnever.
  destruct (get_pixel_cases c z0)
    as [(k & Hk & [Hat _] & _) | [(k & e & Hk & _ & Hat & _) | (_ & Hp)]].
  - rewrite (Hnever k Hk) in Hat. discriminate.
  - rewrite (Hnever k Hk) in Hat. discriminate.
  - exact Hp.
Qed.

(** C2, as the code has it.  When [get_pixel] returns a value [n] below
    255, [n] is the first index at which the iterate of
    z_{k+1} = z_k^2 + c, z_0 = z0 passes the test [abs(z) >= 2]: it holds
    at z_n and fails at every z_k with k < n. *)
Theorem get_pixel_first_escape (c z0 : C) (n : Z) :
  get_pixel c z0 = Ok n -> (n < 255)%Z ->
  (0 <= n)%Z /\ first_escape c z0 (Z.to_nat n).
Proof.
  intros Hp Hn.
  destruct (get_pixel_cases c z0)
    as [(k & Hk & Hfirst & Hr) | [(k & e & _ & _ & _ & Hr) | (_ & Hr)]];
    rewrite Hr in Hp; inversion Hp; subst; try lia.
  rewrite Nat2Z.id. split; [lia | exact Hfirst].
Qed.

(** C3, as the code has it.  When the test [abs(z0) >= 2] of the first
    iteration evaluates to true, [get_pixel] returns 0.  (A magnitude of
    [z0] of 2 or more is not enough: [abs] raises when it is beyond the
    doubles.) *)
Theorem get_pixel_escaped_at_start (c z0 : C) :
  abs_ge_2 z0 = Ok true -> get_pixel c z0 = Ok 0%Z.
Proof.
  intros H0. unfold get_pixel, py_range, quadratic_map.
  cbn [seq map for_loop gen_next]. rewrite H0. reflexivity.
Qed.

(** C4.  A value returned by [get_pixel] is an integer between 0 and 255,
    hence between 0 and [max_iter]. *)
Theorem get_pixel_range (c z0 : C) (n : Z) :
  get_pixel c z0 = Ok n ->
  (0 <= n <= 255)%Z /\ (0 <= n <= max_iter)%Z.
Proof.
  intros Hp. unfold max_iter.
  destruct (get_pixel_cases c z0)
    as [(k & Hk & _ & Hr) | [(k & e & _ & _ & _ & Hr) | (_ & Hr)]];
    rewrite Hr in Hp; inversion Hp; subst; lia.
Qed.

(** The runs of the machine from [(c, z0)] end with the value of the
    function [get_pixel]. *)
Lemma evaluates_unique (c z0 : C) (r1 r2 : result Z) :
  evaluates c z0 r1 -> evaluates c z0 r2 ->
  r1 = r2 /\ r2 = get_pixel c z0.
Proof.
  intros H1 H2. split.
  - exact (steps_deterministic H1 H2).
  - exact (steps_deterministic H2 (get_pixel_evaluates c z0)).
Qed.

(** C7, as the code has it.  When [abs] raises at none of the iterates the
    loop tests (the iterates up to the first that passes the test, 256 at
    most), [get_pixel] returns an integer: the loop has no failure of its
    own. *)
Theorem get_pixel_returns (c z0 : C) :
  abs_defined_on_tested c z0 -> exists n : Z, get_pixel c z0 = Ok n.
Proof.
  intros Hdef.
  destruct (get_pixel_cases c z0)
    as [(k & _ & _ & Hr) | [(k & e & Hk & Hbefore & Hat & _) | (_ & Hr)]].
  - exists (Z.of_nat k). exact Hr.
  - destruct (Hdef k Hk Hbefore) as [b Hb]. congruence.
  - exists 255%Z. exact Hr.
Qed.

(** C10.  On numbers where negation changes neither [abs(z) >= 2] nor
    [z ** 2 + c], [get_pixel(c, -z0)] is [get_pixel(c, z0)]. *)
Theorem get_pixel_neg (c z0 : C) :
  (forall z, abs_ge_2 (neg z) = abs_ge_2 z) ->
  (forall z, quad (neg z) c = quad z c) ->
  get_pixel c (neg z0) = get_pixel c z0.
Proof.
  intros Habs Hquad. unfold get_pixel, quadratic_map.
  rewrite (for_loop_neg c z0 (py_range 256) None Habs Hquad). reflexivity.
Qed.

End GetPixel.

(** ** Calls of [get_pixel] and the heap *)

Section NoHiddenState.

Context {C : Type} {num : Number C}.

Lemma heap_update_last (h : @heap C) (o o' : @gen_obj C) :
  heap_update (h ++ [o]) (length h) o' = h ++ [o'].
Proof.
  induction h as [|x h IH]; cbn [heap_update length app]; [reflexivity|].
  rewrite IH. reflexivity.
Qed.

Lemma nth_error_last (h : @heap C) (o : @gen_obj C) :
  nth_error (h ++ [o]) (length h) = Some o.
Proof.
  induction h as [|x h IH]; cbn [nth_error length app]; [reflexivity | exact IH].
Qed.

(** [next] on the object a call has created advances that object and leaves
    the objects before it as they are. *)
Lemma heap_next_own (h : @heap C) (c : C) (g : @gen C) :
  heap_next (length h) (h ++ [mkGen c g]) =
  Some (fst (gen_next c g), h ++ [mkGen c (snd (gen_next c g))]).
Proof.
  unfold heap_next. rewrite nth_error_last. cbn [gen_c gen_state].
  destruct (gen_next c g) as [z g']. rewrite heap_update_last. reflexivity.
Qed.

Lemma for_loop_heap_own (c : C) (ns : list Z) (h : @heap C) (g : @gen C) (n : option Z) :
  exists g',
    for_loop_heap ns (length h) n (h ++ [mkGen c g]) =
    Some (for_loop c ns g n, h ++ [mkGen c g']).
Proof.
  revert g n. induction ns as [|i ns IH]; intros g n; cbn [for_loop_heap for_loop].
  - exists g. reflexivity.
  - rewrite heap_next_own. destruct (gen_next c g) as [z g1]. cbn [fst snd].
    destruct (abs_ge_2 z) as [[|]|e]; cbn [bind].
    + exists g1. reflexivity.
    + apply IH.
    + exists g1. reflexivity.
Qed.

Lemma get_pixel_heap_own (c z0 : C) (h : @heap C) :
  exists g, get_pixel_heap c z0 h = Some (get_pixel c z0, h ++ [mkGen c g]).
Proof.
  unfold get_pixel_heap, new_generator, get_pixel.
  destruct (for_loop_heap_own c (py_range 256) h (quadratic_map c z0) None)
    as [g ->].
  exists g. reflexivity.
Qed.

Lemma firstn_own (h : @heap C) (o : @gen_obj C) : firstn (length h) (h ++ [o]) = h.
Proof.
  induction h as [|x h IH]; cbn [firstn length app]; [reflexivity|].
  rewrite IH. reflexivity.
Qed.

(** C6.  A call [get_pixel(c, z0)] returns the same on every heap, whatever
    generator objects earlier calls have left there and wherever those
    stand: it returns the value of the function [get_pixel] at [(c, z0)].
    The call always ends, and it changes none of the objects it found: the
    one object it advances is the generator that it has created itself. *)
Theorem get_pixel_no_hidden_state (c z0 : C) (h1 h2 : @heap C) :
  exists r h1' h2',
    get_pixel_heap c z0 h1 = Some (r, h1') /\
    get_pixel_heap c z0 h2 = Some (r, h2') /\
    r = get_pixel c z0 /\
    firstn (length h1) h1' = h1 /\
    firstn (length h2) h2' = h2.
Proof.
  destruct (get_pixel_heap_own c z0 h1) as [g1 H1].
  destruct (get_pixel_heap_own c z0 h2) as [g2 H2].
  exists (get_pixel c z0), (h1 ++ [mkGen c g1]), (h2 ++ [mkGen c g2]).
  repeat split; try assumption; apply firstn_own.
Qed.

End NoHiddenState.

(** ** The pixels of a [Julia] object *)

Section Pixels.

Context {C : Type} {num : Number C}.

Lemma mapM_Forall2 (A B : Type) (f : A -> result B) (l : list A) (l' : list B) :
  mapM f l = Ok l' -> Forall2 (fun a b => f a = Ok b) l l'.
Proof.
  revert l'. induction l as [|a l IH]; intros l' H; cbn in H.
  - inversion H. constructor.
  - destruct (f a) as [b|e] eqn:Hf; cbn in H; [|discriminate].
    destruct (mapM f l) as [bs|e] eqn:Hm; cbn in H; [|discriminate].
    inversion H; subst. constructor; [exact Hf | apply IH; reflexivity].
Qed.

Lemma Forall2_nth_error_l (A B : Type) (R : A -> B -> Prop)
      (l : list A) (l' : list B) (i : nat) (a : A) :
  Forall2 R l l' -> nth_error l i = Some a ->
  exists b, nth_error l' i = Some b /\ R a b.
Proof.
  intros H. revert i. induction H as [|x y l l' Hxy _ IH]; intros i Hi.
  - destruct i; discriminate.
  - destruct i as [|i]; cbn in *.
    + inversion Hi; subst. exists y. split; [reflexivity | exact Hxy].
    + apply IH. exact Hi.
Qed.

(** [vectorize] applies the function at every index. *)
Lemma vectorize_Forall2 (f : C -> C -> result Z) (c : C)
      (g : list (list C)) (p : list (list Z)) :
  vectorize f c g = Ok p ->
  Forall2 (Forall2 (fun z v => f c z = Ok v)) g p.
Proof.
  unfold vectorize. destruct (size g); [discriminate|]. intros H.
  apply mapM_Forall2 in H.
  induction H as [|row prow g' p' Hrow _ IH]; constructor.
  - apply mapM_Forall2. exact Hrow.
  - exact IH.
Qed.

Variable E : Type.
Variable complex_grid : C -> E -> Z -> result (list (list C)).

(** C5.  When [Julia(c_value, centre, extent, resolution)] is built, its
    grid is the one the grid generator returned, [pixels] has as many rows
    as the grid and each row as many entries as the row of the grid, and
    [pixels[i][j]] is what [get_pixel(c_value, grid[i][j])] returns. *)
Theorem Julia_init_pixels (c_value centre : C) (extent : E) (resolution : Z)
        (J : Julia) :
  Julia_init complex_grid c_value centre extent resolution = Ok J ->
  complex_grid centre extent resolution = Ok (grid J) /\
  length (pixels J) = length (grid J) /\
  forall i row, nth_error (grid J) i = Some row ->
    exists prow, nth_error (pixels J) i = Some prow /\
      length prow = length row /\
      forall j z, nth_error row j = Some z ->
        exists v, nth_error prow j = Some v /\ get_pixel c_value z = Ok v.
Proof.
  unfold Julia_init. intros H.
  destruct (complex_grid centre extent resolution) as [g|e]; cbn in H; [|discriminate].
  destruct (vectorize get_pixel c_value g) as [p|e] eqn:Hv; cbn in H; [|discriminate].
  inversion H; subst; cbn [grid pixels]. clear H.
  apply vectorize_Forall2 in Hv.
  split; [reflexivity|]. split; [symmetry; exact (Forall2_length Hv)|].
  intros i row Hi.
  destruct (Forall2_nth_error_l i Hv Hi) as (prow & Hprow & Hrow).
  exists prow. split; [exact Hprow|]. split; [symmetry; exact (Forall2_length Hrow)|].
  intros j z Hj. exact (Forall2_nth_error_l j Hrow Hj).
Qed.

End Pixels.

(** ** The two number types *)

Section Instances.

Local Open Scope Z_scope.

Lemma PyInt_abs_neg (z : Z) : abs_ge_2 (neg z) = abs_ge_2 z.
Proof. cbn. rewrite Z.abs_opp. reflexivity. Qed.

Lemma PyInt_quad_neg (z c : Z) : quad (neg z) c = quad z c.
Proof. cbn [quad neg PyInt]. f_equal. rewrite !Z.pow_2_r. apply Z.mul_opp_opp. Qed.

(** [abs] of an [int] never raises. *)
Lemma PyInt_abs_defined (c z0 : Z) (budget : nat) : abs_defined c z0 budget.
Proof. intros k _. eexists. reflexivity. Qed.

Local Close Scope Z_scope.
Local Open Scope Q_scope.

(** Negating both factors leaves the very fraction, not only its value. *)
Lemma Qmult_opp_opp_eq (a b : Q) : (- a) * (- b) = a * b.
Proof.
  destruct a as [an ad], b as [bn bd]. unfold Qmult, Qopp. cbn [Qnum Qden].
  f_equal. apply Z.mul_opp_opp.
Qed.

Lemma norm2_neg (z : complex) : norm2 (neg z) = norm2 z.
Proof.
  unfold norm2. cbn [neg PyComplex fst snd].
  rewrite !Qmult_opp_opp_eq. reflexivity.
Qed.

Lemma PyComplex_abs_neg (z : complex) : abs_ge_2 (neg z) = abs_ge_2 z.
Proof. cbn [abs_ge_2 PyComplex]. rewrite norm2_neg. reflexivity. Qed.

Lemma PyComplex_quad_neg (z c : complex) : quad (neg z) c = quad z c.
Proof.
  cbn [quad neg PyComplex]. unfold cmul. cbn [fst snd].
  rewrite !Qmult_opp_opp_eq. reflexivity.
Qed.

Lemma chuge_finite : finite chuge = true.
Proof. vm_compute. reflexivity. Qed.

Lemma czero_finite : finite czero = true.
Proof. vm_compute. reflexivity. Qed.

Lemma get_pixel_chuge : get_pixel czero chuge = Raise OverflowError.
Proof. vm_compute. reflexivity. Qed.

Lemma get_pixel_czero : get_pixel czero czero = Ok 255%Z.
Proof. vm_compute. reflexivity. Qed.

Lemma never_escapes_czero : never_escapes czero czero 256.
Proof. apply never_escapes_b_spec. vm_compute. reflexivity. Qed.

End Instances.

(** ** The claims at concrete inputs *)

(** Two calls in a row, the second on the heap that the first has left: the
    generator of the first, suspended at 2, is still there and plays no
    part. *)
Example get_pixel_twice :
  match get_pixel_heap 1%Z 0%Z [] with
  | Some (r1, h1) =>
      match get_pixel_heap 1%Z 0%Z h1 with
      | Some (r2, h2) =>
          r1 = Ok 2%Z /\ r2 = Ok 2%Z /\
          h1 = [mkGen 1%Z (Suspended 2%Z)] /\
          h2 = [mkGen 1%Z (Suspended 2%Z); mkGen 1%Z (Suspended 2%Z)]
      | None => False
      end
  | None => False
  end.
Proof. vm_compute. repeat split. Qed.

Example get_pixel_int_0_0 : get_pixel 0%Z 0%Z = Ok 255%Z.
Proof. vm_compute. reflexivity. Qed.

Example get_pixel_int_0_3 : get_pixel 0%Z 3%Z = Ok 0%Z.
Proof. vm_compute. reflexivity. Qed.

Example get_pixel_int_1_0 : get_pixel 1%Z 0%Z = Ok 2%Z.
Proof. vm_compute. reflexivity. Qed.

(** The centre point of the end-to-end scenario: c = -1, z0 = 0 runs on the
    cycle 0, -1, 0, -1, ... *)
Example get_pixel_period_two : get_pixel (-1, 0) czero = Ok 255%Z.
Proof. vm_compute. reflexivity. Qed.

Lemma get_pixel_capped_witness :
  never_escapes czero czero 256 /\ get_pixel czero czero = Ok 255%Z.
Proof.
  split.
  - exact never_escapes_czero.
  - apply (@get_pixel_capped _ _ czero czero). exact never_escapes_czero.
Defined.

(** C1, as stated, fails: at c = 0, z0 = 0 the bound is never reached and
    the result is 255, not [max_iter]. *)
Lemma get_pixel_capped_not_max_iter :
  ~ (forall c z0 : complex,
        never_escapes c z0 256 -> get_pixel c z0 = Ok max_iter).
Proof.
  intros H. specialize (H czero czero never_escapes_czero).
  rewrite get_pixel_czero in H. discriminate.
Qed.

Lemma get_pixel_first_escape_witness :
  (0 <= 2)%Z /\ first_escape 1%Z 0%Z (Z.to_nat 2).
Proof.
  apply (@get_pixel_first_escape _ _ 1%Z 0%Z 2%Z).
  - vm_compute. reflexivity.
  - lia.
Defined.

(** C2, as stated, fails: at c = 0, z0 = 0 the result 255 is below the
    budget of 256 iterations and z_255 = 0 does not pass the test. *)
Lemma get_pixel_255_no_escape :
  ~ (forall (c z0 : complex) (n : Z),
        get_pixel c z0 = Ok n -> (n < max_iter)%Z ->
        first_escape c z0 (Z.to_nat n)).
Proof.
  intros H.
  destruct (H czero czero 255%Z get_pixel_czero eq_refl) as [Hesc _].
  rewrite (never_escapes_czero) in Hesc; [discriminate|].
  vm_compute. lia.
Qed.

Lemma get_pixel_escaped_at_start_witness :
  abs_ge_2 cthree = Ok true /\ get_pixel czero cthree = Ok 0%Z.
Proof.
  split.
  - vm_compute. reflexivity.
  - apply (@get_pixel_escaped_at_start _ _ czero cthree).
    vm_compute. reflexivity.
Defined.

Lemma get_pixel_range_witness :
  (0 <= 2 <= 255)%Z /\ (0 <= 2 <= max_iter)%Z.
Proof.
  apply (@get_pixel_range _ _ cone czero 2%Z).
  vm_compute. reflexivity.
Defined.

(** At c = 0, z0 = 3 one iterate is tested and the call returns; the
    iterates after it, which are not tested, grow beyond the doubles. *)
Lemma cthree_tested : abs_defined_on_tested czero cthree.
Proof.
  intros [|k] Hk Hbefore.
  - exists true. vm_compute. reflexivity.
  - specialize (Hbefore 0%nat (Nat.lt_0_succ k)). vm_compute in Hbefore.
    discriminate.
Qed.

Lemma cthree_overflows_later :
  abs_ge_2 (orbit czero cthree 10) = Raise OverflowError.
Proof. vm_compute. reflexivity. Qed.

Lemma get_pixel_returns_witness :
  abs_defined_on_tested czero cthree /\
  exists n : Z, get_pixel czero cthree = Ok n.
Proof.
  split; [exact cthree_tested|].
  exact (@get_pixel_returns _ _ czero cthree cthree_tested).
Defined.

(** C3, as stated, fails: both parts of z0 are the finite double 3 * 2^1022,
    the magnitude of z0 is well above 2, and the call raises instead of
    returning 0. *)
Lemma get_pixel_escaped_overflow :
  ~ (forall c z0 : complex,
        finite z0 = true -> 4 <= norm2 z0 -> get_pixel c z0 = Ok 0%Z).
Proof.
  intros H.
  assert (Hbig : 4 <= norm2 chuge) by (unfold Qle; vm_compute; discriminate).
  specialize (H czero chuge chuge_finite Hbig).
  rewrite get_pixel_chuge in H. discriminate.
Qed.

(** C7, as stated, fails: both parts of z0 are the finite double 3 * 2^1022,
    the magnitude of z0 is beyond the doubles, and [abs(z0)] raises in the
    first iteration. *)
Lemma get_pixel_overflow :
  ~ (forall c z0 : complex,
        finite c = true -> finite z0 = true ->
        exists n : Z, get_pixel c z0 = Ok n).
Proof.
  intros H. destruct (H czero chuge czero_finite chuge_finite) as [n Hn].
  rewrite get_pixel_chuge in Hn. discriminate.
Qed.

Lemma get_pixel_neg_witness :
  get_pixel cone (neg cone) = get_pixel cone cone.
Proof.
  apply (@get_pixel_neg _ _ cone cone).
  - exact PyComplex_abs_neg.
  - intros z. apply PyComplex_quad_neg.
Defined.

(** ** The grid generator *)

Section Grid.

Local Open Scope Q_scope.

Lemma linspace_length (lo hi : Q) (n : nat) : length (linspace lo hi n) = n.
Proof. unfold linspace. rewrite length_map, length_seq. reflexivity. Qed.

Lemma In_linspace (lo hi : Q) (n : nat) (x : Q) :
  In x (linspace lo hi n) <->
  exists k, (k < n)%nat /\
    x = lo + inject_Z (Z.of_nat k) * ((hi - lo) / inject_Z (Z.of_nat n - 1)).
Proof.
  unfold linspace. rewrite in_map_iff. split.
  - intros (k & Hx & Hk). apply in_seq in Hk. exists k. split; [lia | now symmetry].
  - intros (k & Hk & Hx). exists k. split; [now symmetry | apply in_seq; lia].
Qed.

(** The divisor of the spacing, for two samples or more. *)
Lemma divisor_pos (n : nat) : (2 <= n)%nat -> 0 < inject_Z (Z.of_nat n - 1).
Proof.
  intros Hn. change 0 with (inject_Z 0). rewrite <- Zlt_Qlt. lia.
Qed.

Lemma spacing_nonneg (lo hi : Q) (n : nat) :
  (2 <= n)%nat -> lo <= hi -> 0 <= (hi - lo) / inject_Z (Z.of_nat n - 1).
Proof.
  intros Hn Hle. unfold Qdiv. apply Qmult_le_0_compat; [lra|].
  apply Qinv_le_0_compat. apply Qlt_le_weak. now apply divisor_pos.
Qed.

Lemma linspace_bounds (lo hi : Q) (n : nat) (x : Q) :
  (2 <= n)%nat -> lo <= hi -> In x (linspace lo hi n) -> lo <= x <= hi.
Proof.
  intros Hn Hle Hx. apply In_linspace in Hx. destruct Hx as (k & Hk & ->).
  pose proof (spacing_nonneg Hn Hle) as Hs.
  pose proof (divisor_pos Hn) as Hm.
  set (m := inject_Z (Z.of_nat n - 1)) in *.
  set (s := (hi - lo) / m) in *.
  assert (H0 : 0 <= inject_Z (Z.of_nat k)).
  { change 0 with (inject_Z 0). rewrite <- Zle_Qle. lia. }
  assert (Hkm : inject_Z (Z.of_nat k) <= m).
  { unfold m. rewrite <- Zle_Qle. lia. }
  assert (Hms : m * s == hi - lo).
  { unfold s. field. intros Hz. rewrite Hz in Hm. now apply Qlt_irrefl in Hm. }
  split.
  - pose proof (Qmult_le_0_compat _ _ H0 Hs). lra.
  - pose proof (Qmult_le_compat_r _ _ s Hkm Hs). lra.
Qed.

Lemma linspace_first (lo hi : Q) (n : nat) :
  (1 <= n)%nat -> exists x, In x (linspace lo hi n) /\ x == lo.
Proof.
  intros Hn. eexists. split.
  - apply In_linspace. exists 0%nat. split; [lia | reflexivity].
  - cbn [Z.of_nat]. ring.
Qed.

Lemma linspace_last (lo hi : Q) (n : nat) :
  (2 <= n)%nat -> exists x, In x (linspace lo hi n) /\ x == hi.
Proof.
  intros Hn. eexists. split.
  - apply In_linspace. exists (n - 1)%nat. split; [lia | reflexivity].
  - pose proof (divisor_pos Hn) as Hm.
    replace (Z.of_nat (n - 1)) with (Z.of_nat n - 1)%Z by lia.
    field. intros Hz. rewrite Hz in Hm. now apply Qlt_irrefl in Hm.
Qed.

Lemma linspace_min (lo hi : Q) (n : nat) :
  (2 <= n)%nat -> lo <= hi -> is_min lo (linspace lo hi n).
Proof.
  intros Hn Hle. split.
  - apply linspace_first. lia.
  - intros x Hx. now apply (@linspace_bounds lo hi n x Hn Hle Hx).
Qed.

Lemma linspace_max (lo hi : Q) (n : nat) :
  (2 <= n)%nat -> lo <= hi -> is_max hi (linspace lo hi n).
Proof.
  intros Hn Hle. split.
  - now apply linspace_last.
  - intros x Hx. now apply (@linspace_bounds lo hi n x Hn Hle Hx).
Qed.

(** The points of a mesh. *)
Lemma In_meshgrid (xs ys : list Q) (z : complex) :
  In z (concat (meshgrid xs ys)) <-> In (fst z) xs /\ In (snd z) ys.
Proof.
  unfold meshgrid. rewrite in_concat. split.
  - intros (row & Hrow & Hz). apply in_map_iff in Hrow.
    destruct Hrow as (y & <- & Hy). apply in_map_iff in Hz.
    destruct Hz as (x & <- & Hx). now split.
  - intros [Hx Hy]. exists (map (fun x => (x, snd z)) xs). split.
    + apply in_map_iff. now exists (snd z).
    + apply in_map_iff. exists (fst z). split; [now destruct z | exact Hx].
Qed.

Lemma In_reals_meshgrid (xs ys : list Q) (x : Q) :
  ys <> [] -> (In x (reals (meshgrid xs ys)) <-> In x xs).
Proof.
  intros Hys. unfold reals. rewrite in_map_iff. split.
  - intros (z & <- & Hz). now apply In_meshgrid in Hz.
  - intros Hx. destruct ys as [|y ys]; [congruence|].
    exists (x, y). split; [reflexivity|]. apply In_meshgrid. cbn. auto.
Qed.

Lemma In_imags_meshgrid (xs ys : list Q) (y : Q) :
  xs <> [] -> (In y (imags (meshgrid xs ys)) <-> In y ys).
Proof.
  intros Hxs. unfold imags. rewrite in_map_iff. split.
  - intros (z & <- & Hz). now apply In_meshgrid in Hz.
  - intros Hy. destruct xs as [|x xs]; [congruence|].
    exists (x, y). split; [reflexivity|]. apply In_meshgrid. cbn. auto.
Qed.

Lemma meshgrid_shape (xs ys : list Q) :
  length (meshgrid xs ys) = length ys /\
  Forall (fun row => length row = length xs) (meshgrid xs ys).
Proof.
  unfold meshgrid. split; [apply length_map|].
  apply Forall_forall. intros row Hrow. apply in_map_iff in Hrow.
  destruct Hrow as (y & <- & _). apply length_map.
Qed.

Lemma linspace_nonempty (lo hi : Q) (n : nat) :
  (1 <= n)%nat -> linspace lo hi n <> [].
Proof.
  intros Hn H. apply (f_equal (@length Q)) in H.
  rewrite linspace_length in H. cbn in H. lia.
Qed.

(** A valid call of the generator returns the mesh. *)
Lemma build_grid_valid (centre : complex) (extent : Q) (resolution : Z) :
  (1 <= resolution)%Z -> 0 < extent ->
  build_grid centre extent resolution =
  Ok (meshgrid
        (linspace (fst centre - extent / 2) (fst centre + extent / 2)
                  (Z.to_nat resolution))
        (linspace (snd centre - extent / 2) (snd centre + extent / 2)
                  (Z.to_nat resolution))).
Proof.
  intros Hres Hext. unfold build_grid.
  replace (resolution <? 1)%Z with false by (symmetry; apply Z.ltb_ge; lia).
  destruct (Qle_bool extent 0) eqn:Hb; [|reflexivity].
  apply Qle_bool_iff in Hb. lra.
Qed.

(** C8.  With [resolution < 1] or [extent <= 0] the grid generator fails
    with [InvalidParameter], whatever the other arguments, and so does the
    construction of a [Julia] object on it: no grid and no pixels come
    out. *)
Theorem build_grid_invalid (centre : complex) (extent : Q) (resolution : Z) :
  (resolution < 1)%Z \/ extent <= 0 ->
  build_grid centre extent resolution = Raise InvalidParameter /\
  forall c_value : complex,
    Julia_new c_value centre extent resolution = Raise InvalidParameter.
Proof.
  intros H.
  assert (Hg : build_grid centre extent resolution = Raise InvalidParameter).
  { unfold build_grid. destruct H as [Hres | Hext].
    - apply Z.ltb_lt in Hres. rewrite Hres. reflexivity.
    - apply Qle_bool_iff in Hext. rewrite Hext, orb_true_r. reflexivity. }
  split; [exact Hg|].
  intros c_value. unfold Julia_new, Julia_init. rewrite Hg. reflexivity.
Qed.

Lemma corners_two (x0 x1 y0 y1 : Q) :
  Forall2 (Forall2 ceq)
          (meshgrid (linspace x0 x1 2) (linspace y0 y1 2))
          [[(x0, y0); (x1, y0)]; [(x0, y1); (x1, y1)]].
Proof.
  unfold linspace, meshgrid. cbn [seq map Z.of_nat Pos.of_succ_nat Pos.succ Z.sub Z.add Z.opp Z.pos_sub Z.double Z.pred_double Pos.pred_double].
  repeat constructor; unfold ceq; cbn [fst snd]; field.
Qed.

(** C9.  For [resolution >= 2] and [extent > 0] the generator returns a
    grid of [resolution] rows of [resolution] points each; the least and
    the largest real part in it are [centre.real - extent/2] and
    [centre.real + extent/2], the least and the largest imaginary part
    [centre.imag - extent/2] and [centre.imag + extent/2]; and for
    [resolution = 2] the grid is the four corners of the square. *)
Theorem build_grid_covers (centre : complex) (extent : Q) (resolution : Z) :
  (2 <= resolution)%Z -> 0 < extent ->
  exists g,
    build_grid centre extent resolution = Ok g /\
    length g = Z.to_nat resolution /\
    Forall (fun row => length row = Z.to_nat resolution) g /\
    is_min (fst centre - extent / 2) (reals g) /\
    is_max (fst centre + extent / 2) (reals g) /\
    is_min (snd centre - extent / 2) (imags g) /\
    is_max (snd centre + extent / 2) (imags g) /\
    (resolution = 2%Z -> Forall2 (Forall2 ceq) g (corners centre extent)).
Proof.
  intros Hres Hext.
  eexists. split; [apply build_grid_valid; [lia | exact Hext]|].
  set (n := Z.to_nat resolution).
  assert (Hn : (2 <= n)%nat) by (unfold n; lia).
  assert (Hh : 0 <= extent / 2).
  { unfold Qdiv. apply Qmult_le_0_compat; [lra | discriminate]. }
  set (h := extent / 2) in *.
  set (x0 := fst centre - h). set (x1 := fst centre + h).
  set (y0 := snd centre - h). set (y1 := snd centre + h).
  assert (Hx : x0 <= x1) by (unfold x0, x1; lra).
  assert (Hy : y0 <= y1) by (unfold y0, y1; lra).
  assert (Hxs : linspace x0 x1 n <> []) by (apply linspace_nonempty; lia).
  assert (Hys : linspace y0 y1 n <> []) by (apply linspace_nonempty; lia).
  destruct (meshgrid_shape (linspace x0 x1 n) (linspace y0 y1 n)) as [Hrows Hcols].
  rewrite !linspace_length in *.
  split; [exact Hrows|]. split.
  { exact Hcols. }
  destruct (linspace_min Hn Hx) as [[a [Ha Ea]] Hlo].
  destruct (linspace_max Hn Hx) as [[b [Hb Eb]] Hhi].
  destruct (linspace_min Hn Hy) as [[a' [Ha' Ea']] Hlo'].
  destruct (linspace_max Hn Hy) as [[b' [Hb' Eb']] Hhi'].
  repeat split.
  - exists a. split; [apply In_reals_meshgrid; assumption | exact Ea].
  - intros x Hin. apply Hlo. now apply In_reals_meshgrid in Hin.
  - exists b. split; [apply In_reals_meshgrid; assumption | exact Eb].
  - intros x Hin. apply Hhi. now apply In_reals_meshgrid in Hin.
  - exists a'. split; [apply In_imags_meshgrid; assumption | exact Ea'].
  - intros y Hin. apply Hlo'. now apply In_imags_meshgrid in Hin.
  - exists b'. split; [apply In_imags_meshgrid; assumption | exact Eb'].
  - intros y Hin. apply Hhi'. now apply In_imags_meshgrid in Hin.
  - intros H2. unfold n. rewrite H2. apply corners_two.
Qed.

End Grid.

Lemma build_grid_invalid_witness :
  build_grid czero 1 0 = Raise InvalidParameter /\
  forall c_value : complex, Julia_new c_value czero 1 0 = Raise InvalidParameter.
Proof.
  apply (@build_grid_invalid czero 1 0%Z). left. reflexivity.
Defined.

Lemma build_grid_covers_witness :
  exists g,
    build_grid czero 2 2 = Ok g /\
    length g = Z.to_nat 2 /\
    Forall (fun row => length row = Z.to_nat 2) g /\
    is_min (fst czero - 2 / 2) (reals g) /\
    is_max (fst czero + 2 / 2) (reals g) /\
    is_min (snd czero - 2 / 2) (imags g) /\
    is_max (snd czero + 2 / 2) (imags g) /\
    (2%Z = 2%Z -> Forall2 (Forall2 ceq) g (corners czero 2)).
Proof.
  apply (@build_grid_covers czero 2 2%Z).
  - lia.
  - reflexivity.
Defined.

Lemma Julia_init_pixels_witness :
  exists J : Julia,
    Julia_new czero czero 2 2 = Ok J /\
    pixels J = [[1; 1]; [1; 1]]%Z /\
    length (pixels J) = length (grid J) /\
    forall i row, nth_error (grid J) i = Some row ->
      exists prow, nth_error (pixels J) i = Some prow /\
        length prow = length row /\
        forall j z, nth_error row j = Some z ->
          exists v, nth_error prow j = Some v /\ get_pixel czero z = Ok v.
Proof.
  eexists. split; [vm_compute; reflexivity|].
  split; [reflexivity|].
  eapply (@Julia_init_pixels complex PyComplex Q build_grid czero czero 2 2%Z).
  vm_compute. reflexivity.
Defined.

(** * More of the code *)

(** ** What [get_pixel] returns, in full *)

Section Outcomes.

Context {C : Type} {num : Number C}.

(** The converses of the three cases of a call. *)
Lemma outcome_escape (c z0 : C) (k : nat) :
  (k < 256)%nat -> first_escape c z0 k -> get_pixel c z0 = Ok (Z.of_nat k).
Proof.
  intros Hk [Hat Hbefore].
  destruct (get_pixel_cases c z0)
    as [(k' & Hk' & [Hat' Hbefore'] & Hr) | [(k' & e & Hk' & Hbefore' & Hat' & _) | (Hnever & _)]].
  - destruct (Nat.lt_trichotomy k k') as [Hlt | [-> | Hgt]]; [| exact Hr |].
    + rewrite (Hbefore' k Hlt) in Hat. discriminate.
    + rewrite (Hbefore k' Hgt) in Hat'. discriminate.
  - destruct (Nat.lt_trichotomy k k') as [Hlt | [-> | Hgt]].
    + rewrite (Hbefore' k Hlt) in Hat. discriminate.
    + congruence.
    + rewrite (Hbefore k' Hgt) in Hat'. discriminate.
  - rewrite (Hnever k Hk) in Hat. discriminate.
Qed.

Lemma outcome_raise (c z0 : C) (k : nat) (e : exn) :
  (k < 256)%nat -> never_escapes c z0 k ->
  abs_ge_2 (orbit c z0 k) = Raise e -> get_pixel c z0 = Raise e.
Proof.
  intros Hk Hbefore Hat.
  destruct (get_pixel_cases c z0)
    as [(k' & Hk' & [Hat' Hbefore'] & _) | [(k' & e' & Hk' & Hbefore' & Hat' & Hr) | (Hnever & _)]].
  - destruct (Nat.lt_trichotomy k k') as [Hlt | [-> | Hgt]].
    + rewrite (Hbefore' k Hlt) in Hat. discriminate.
    + congruence.
    + rewrite (Hbefore k' Hgt) in Hat'. discriminate.
  - destruct (Nat.lt_trichotomy k k') as [Hlt | [-> | Hgt]].
    + rewrite (Hbefore' k Hlt) in Hat. discriminate.
    + congruence.
    + rewrite (Hbefore k' Hgt) in Hat'. discriminate.
  - rewrite (Hnever k Hk) in Hat. discriminate.
Qed.

Lemma outcome_exhausted (c z0 : C) :
  never_escapes c z0 256 -> get_pixel c z0 = Ok 255%Z.
Proof.
  intros Hnever.
  destruct (get_pixel_cases c z0)
    as [(k & Hk & [Hat _] & _) | [(k & e & Hk & _ & Hat & _) | (_ & Hr)]].
  - rewrite (Hnever k Hk) in Hat. discriminate.
  - rewrite (Hnever k Hk) in Hat. discriminate.
  - exact Hr.
Qed.

Lemma outcome_last (c z0 : C) :
  never_escapes c z0 255 -> (exists b, abs_ge_2 (orbit c z0 255) = Ok b) ->
  get_pixel c z0 = Ok 255%Z.
Proof.
  intros Hbefore [[|] Hat].
  - apply (outcome_escape (c := c) (z0 := z0) (k := 255)); [lia|].
    split; assumption.
  - apply outcome_exhausted. intros k Hk.
    destruct (Nat.eq_dec k 255) as [-> | Hne]; [exact Hat | apply Hbefore; lia].
Qed.

(** The iterates from the second one on are the iterates of the second. *)
Lemma orbit_shift (c z0 : C) (k : nat) :
  orbit c (quad z0 c) k = orbit c z0 (S k).
Proof.
  induction k as [|k IH]; [reflexivity|].
  cbn [orbit] in *. rewrite IH. reflexivity.
Qed.

(** X1.  The result is 0 exactly when the starting point passes the test
    [abs(z0) >= 2]. *)
Theorem get_pixel_zero_iff (c z0 : C) :
  get_pixel c z0 = Ok 0%Z <-> abs_ge_2 z0 = Ok true.
Proof.
  split.
  - intros Hr.
    destruct (get_pixel_cases c z0)
      as [(k & Hk & [Hat _] & Hr') | [(k & e & _ & _ & _ & Hr') | (_ & Hr')]];
      rewrite Hr' in Hr; inversion Hr.
    assert (k = 0%nat) by lia. subst k. exact Hat.
  - intros H0. apply (outcome_escape (c := c) (z0 := z0) (k := 0)); [lia|].
    split; [exact H0 | intros k Hk; lia].
Qed.

(** X2.  For an index [k] below 255, [get_pixel] returns [k] exactly when
    [k] is the first index at which the test holds. *)
Theorem get_pixel_eq_iff_first_escape (c z0 : C) (k : nat) :
  (k < 255)%nat ->
  (get_pixel c z0 = Ok (Z.of_nat k) <-> first_escape c z0 k).
Proof.
  intros Hk. split.
  - intros Hr.
    destruct (get_pixel_cases c z0)
      as [(k' & Hk' & Hfirst & Hr') | [(k' & e & _ & _ & _ & Hr') | (_ & Hr')]];
      rewrite Hr' in Hr; inversion Hr; try lia.
    assert (k' = k) by lia. subst k'. exact Hfirst.
  - intros Hfirst. apply outcome_escape; [lia | exact Hfirst].
Qed.

(** X3.  [get_pixel] returns 255 exactly when the test fails at the 255
    iterates z_0, ..., z_254 and [abs] does not raise at z_255: whether z_255
    passes the test makes no difference to the result. *)
Theorem get_pixel_255_iff (c z0 : C) :
  get_pixel c z0 = Ok 255%Z <->
  never_escapes c z0 255 /\ exists b, abs_ge_2 (orbit c z0 255) = Ok b.
Proof.
  split.
  - intros Hr.
    destruct (get_pixel_cases c z0)
      as [(k & Hk & [Hat Hbefore] & Hr') | [(k & e & _ & _ & _ & Hr') | (Hnever & _)]].
    + rewrite Hr' in Hr. inversion Hr. assert (k = 255%nat) by lia. subst k.
      split; [exact Hbefore | exists true; exact Hat].
    + rewrite Hr' in Hr. discriminate.
    + split; [intros k Hk; apply Hnever; lia | exists false; apply Hnever; lia].
  - intros [Hbefore Hat]. now apply outcome_last.
Qed.

(** X4.  One step of the map costs one iteration: when [z0] fails the test
    and [get_pixel(c, z0 ** 2 + c)] returns [m], [get_pixel(c, z0)] returns
    [m + 1], capped at 255. *)
Theorem get_pixel_step (c z0 : C) (m : Z) :
  abs_ge_2 z0 = Ok false ->
  get_pixel c (quad z0 c) = Ok m ->
  get_pixel c z0 = Ok (Z.min (m + 1) 255).
Proof.
  intros H0 Hm.
  assert (Hshift : forall k,
             (forall j, (j < k)%nat -> abs_ge_2 (orbit c (quad z0 c) j) = Ok false) ->
             never_escapes c z0 (S k)).
  { intros k Hk [|j] Hj; [exact H0|]. rewrite <- orbit_shift. apply Hk. lia. }
  destruct (get_pixel_cases c (quad z0 c))
    as [(k & Hk & [Hat Hbefore] & Hr) | [(k & e & _ & _ & _ & Hr) | (Hnever & Hr)]];
    rewrite Hr in Hm; inversion Hm; subst m.
  - rewrite orbit_shift in Hat.
    destruct (Nat.eq_dec k 255) as [-> | Hne].
    + change (Z.min (Z.of_nat 255 + 1) 255) with 255%Z.
      apply outcome_exhausted. apply Hshift. exact Hbefore.
    + replace (Z.min (Z.of_nat k + 1) 255) with (Z.of_nat (S k)) by lia.
      apply outcome_escape; [lia|]. split; [exact Hat | apply Hshift, Hbefore].
  - change (Z.min (255 + 1) 255) with 255%Z.
    apply outcome_exhausted. intros [|j] Hj; [exact H0|].
    rewrite <- orbit_shift. apply Hnever. lia.
Qed.

End Outcomes.

(** ** What the result depends on *)

Section Symmetry.

Context {C : Type} {num : Number C}.

(** Two calls whose 256 tests have the same outcomes return the same. *)
Lemma get_pixel_ext (c z0 c' z0' : C) :
  (forall k, (k < 256)%nat ->
     abs_ge_2 (orbit c' z0' k) = abs_ge_2 (orbit c z0 k)) ->
  get_pixel c' z0' = get_pixel c z0.
Proof.
  intros Hsame.
  destruct (get_pixel_cases c z0)
    as [(k & Hk & [Hat Hbefore] & Hr) | [(k & e & Hk & Hbefore & Hat & Hr) | (Hnever & Hr)]];
    rewrite Hr.
  - apply outcome_escape; [exact Hk|]. split.
    + rewrite Hsame by exact Hk. exact Hat.
    + intros j Hj. rewrite Hsame by lia. apply Hbefore. exact Hj.
  - apply (outcome_raise (c := c') (z0 := z0') (k := k)); [exact Hk | |].
    + intros j Hj. rewrite Hsame by lia. apply Hbefore. exact Hj.
    + rewrite Hsame by exact Hk. exact Hat.
  - apply outcome_exhausted. intros j Hj. rewrite Hsame by exact Hj.
    apply Hnever. exact Hj.
Qed.

(** X5.  A map [f] of the numbers that leaves the test [abs(z) >= 2] as it
    is and commutes with the step, [f(z) ** 2 + f(c) = f(z ** 2 + c)], leaves
    the result as it is: [get_pixel(f(c), f(z0))] is [get_pixel(c, z0)]. *)
Theorem get_pixel_equivariant (f : C -> C) (c z0 : C) :
  (forall z, abs_ge_2 (f z) = abs_ge_2 z) ->
  (forall z, quad (f z) (f c) = f (quad z c)) ->
  get_pixel (f c) (f z0) = get_pixel c z0.
Proof.
  intros Habs Hquad. apply get_pixel_ext. intros k _.
  assert (Horbit : orbit (f c) (f z0) k = f (orbit c z0 k)).
  { induction k as [|k IH]; [reflexivity|]. cbn [orbit]. rewrite IH. apply Hquad. }
  rewrite Horbit. apply Habs.
Qed.

End Symmetry.

(** ** The invariant of the loop *)

Section Invariant.

Context {C : Type} {num : Number C}.

Lemma loop_invariant_initial (c z0 : C) :
  loop_invariant c z0 (Running (py_range 256) (quadratic_map c z0) None).
Proof.
  exists 0%nat. split; [lia|]. split; [reflexivity|]. split; [reflexivity|].
  split; [reflexivity|]. intros k Hk. inversion Hk.
Qed.

Lemma never_escapes_succ (c z0 : C) (k : nat) :
  never_escapes c z0 k -> abs_ge_2 (orbit c z0 k) = Ok false ->
  never_escapes c z0 (S k).
Proof.
  intros Hbefore Hat j Hj.
  destruct (Nat.eq_dec j k) as [-> | Hne]; [exact Hat | apply Hbefore; lia].
Qed.

Lemma loop_invariant_step (c z0 : C) (s1 s2 : config) :
  loop_invariant c z0 s1 -> step c s1 s2 -> loop_invariant c z0 s2.
Proof.
  intros Hinv Hstep.
  destruct Hstep as [g n | i ns g n z g' Hg Hz | i ns g n z g' Hg Hz | i ns g n z g' e Hg Hz];
    destruct Hinv as (k & Hk & Hns & -> & -> & Hbefore); cbn [loop_invariant].
  - assert (k = 256)%nat.
    { apply (f_equal (@length Z)) in Hns.
      rewrite length_map, length_seq in Hns. cbn [length] in Hns. lia. }
    subst k. cbn [last_index return_local].
    symmetry. apply outcome_exhausted. exact Hbefore.
  - destruct (256 - k)%nat as [|m] eqn:Hm; [discriminate|].
    cbn [seq map] in Hns. inversion Hns; subst i ns.
    rewrite gen_next_at in Hg. inversion Hg; subst z g'.
    exists (S k). repeat split.
    + lia.
    + f_equal. f_equal. lia.
    + now apply never_escapes_succ.
  - destruct (256 - k)%nat as [|m] eqn:Hm; [discriminate|].
    cbn [seq map] in Hns. inversion Hns; subst i ns.
    rewrite gen_next_at in Hg. inversion Hg; subst z g'.
    symmetry. apply outcome_escape; [lia|]. split; [exact Hz | exact Hbefore].
  - destruct (256 - k)%nat as [|m] eqn:Hm; [discriminate|].
    cbn [seq map] in Hns. inversion Hns; subst i ns.
    rewrite gen_next_at in Hg. inversion Hg; subst z g'.
    symmetry. apply (outcome_raise (c := c) (z0 := z0) (k := k)); [lia | exact Hbefore | exact Hz].
Qed.

(** X6.  Every configuration a call [get_pixel(c, z0)] goes through keeps
    the invariant: while the loop runs, after [k] iterations, the iterates
    z_0, ..., z_{k-1} have all failed the test, [n] is [k - 1] and the
    generator has been resumed [k] times, never beyond the iterate under
    test; and whatever the call ends with is the value of [get_pixel]. *)
Theorem loop_invariant_reachable (c z0 : C) (s : config) :
  steps c (Running (py_range 256) (quadratic_map c z0) None) s ->
  loop_invariant c z0 s.
Proof.
  intros Hsteps. pose proof (loop_invariant_initial c z0) as Hinit.
  induction Hsteps as [s | s1 s2 s3 Hstep _ IH]; [exact Hinit|].
  apply IH. exact (@loop_invariant_step c z0 s1 s2 Hinit Hstep).
Qed.

End Invariant.

(** ** When the construction of a [Julia] object succeeds *)

Section Construction.

Context {C : Type} {num : Number C}.

Lemma mapM_Raise (A B : Type) (f : A -> result B) (l : list A) (e : exn) :
  mapM f l = Raise e -> exists a, In a l /\ f a = Raise e.
Proof.
  induction l as [|a l IH]; cbn [mapM]; intros H; [discriminate|].
  destruct (f a) as [b|e'] eqn:Hf; cbn [bind] in H.
  - destruct (mapM f l) as [bs|e'] eqn:Hm; cbn [bind] in H; [discriminate|].
    destruct (IH H) as (a' & Hin & Ha'). exists a'. split; [now right | exact Ha'].
  - exists a. split; [now left | congruence].
Qed.

Lemma mapM_Ok (A B : Type) (f : A -> result B) (l : list A) :
  (forall a, In a l -> exists b, f a = Ok b) -> exists l', mapM f l = Ok l'.
Proof.
  induction l as [|a l IH]; intros H; cbn [mapM]; [now exists []|].
  destruct (H a (or_introl eq_refl)) as [b ->].
  destruct IH as [bs ->]; [intros a' Ha'; apply H; now right|].
  cbn [bind]. now eexists.
Qed.

Lemma mapM_values (A B : Type) (f : A -> result B) (l : list A) (l' : list B) (b : B) :
  mapM f l = Ok l' -> In b l' -> exists a, In a l /\ f a = Ok b.
Proof.
  revert l'. induction l as [|a l IH]; intros l' H Hb; cbn [mapM] in H.
  - inversion H; subst. destruct Hb.
  - destruct (f a) as [b'|e] eqn:Hf; cbn [bind] in H; [|discriminate].
    destruct (mapM f l) as [bs|e] eqn:Hm; cbn [bind] in H; [|discriminate].
    inversion H; subst. destruct Hb as [-> | Hb].
    + exists a. split; [now left | exact Hf].
    + destruct (IH bs eq_refl Hb) as (a' & Hin & Ha').
      exists a'. split; [now right | exact Ha'].
Qed.

Variable E : Type.
Variable complex_grid : C -> E -> Z -> result (list (list C)).

(** X7.  [Julia(c_value, centre, extent, resolution)] is built exactly when
    the grid generator returns a grid, the grid has a point, and
    [get_pixel(c_value, z)] returns at every point [z] of the grid. *)
Theorem Julia_init_succeeds_iff (c_value centre : C) (extent : E) (resolution : Z) :
  (exists J, Julia_init complex_grid c_value centre extent resolution = Ok J) <->
  (exists g, complex_grid centre extent resolution = Ok g /\
     size g <> 0%nat /\
     forall z, In z (concat g) -> exists v, get_pixel c_value z = Ok v).
Proof.
  unfold Julia_init, vectorize. split.
  - intros [J H].
    destruct (complex_grid centre extent resolution) as [g|e]; cbn [bind] in H; [|discriminate].
    exists g. split; [reflexivity|].
    destruct (size g) as [|n] eqn:Hsize; cbn [bind] in H; [discriminate|].
    split; [discriminate|].
    destruct (mapM (mapM (get_pixel c_value)) g) as [p|e] eqn:Hp; [|discriminate].
    apply mapM_Forall2 in Hp.
    intros z Hz. apply in_concat in Hz. destruct Hz as (row & Hrow & Hz).
    destruct (In_nth_error _ _ Hrow) as [i Hi].
    destruct (Forall2_nth_error_l i Hp Hi) as (prow & _ & Hprow).
    apply mapM_Forall2 in Hprow.
    destruct (In_nth_error _ _ Hz) as [j Hj].
    destruct (Forall2_nth_error_l j Hprow Hj) as (v & _ & Hv).
    exists v. exact Hv.
  - intros (g & -> & Hsize & Hall). cbn [bind].
    destruct (size g) as [|n]; [congruence|].
    destruct (@mapM_Ok _ _ (mapM (get_pixel c_value)) g) as [p ->].
    + intros row Hrow. apply mapM_Ok. intros z Hz. apply Hall.
      apply in_concat. exists row. split; assumption.
    + cbn [bind]. now eexists.
Qed.

(** X8.  An exception of the construction is the exception of the grid
    generator, or [ValueError] for a grid without points, or the exception
    of [get_pixel] at a point of the grid. *)
Theorem Julia_init_raises (c_value centre : C) (extent : E) (resolution : Z)
        (e : exn) :
  Julia_init complex_grid c_value centre extent resolution = Raise e ->
  complex_grid centre extent resolution = Raise e \/
  (exists g, complex_grid centre extent resolution = Ok g /\
     size g = 0%nat /\ e = ValueError) \/
  (exists g z, complex_grid centre extent resolution = Ok g /\
     In z (concat g) /\ get_pixel c_value z = Raise e).
Proof.
  unfold Julia_init, vectorize. intros H.
  destruct (complex_grid centre extent resolution) as [g|e']; cbn [bind] in H.
  - right. destruct (size g) as [|n] eqn:Hsize; cbn [bind] in H.
    + left. exists g. repeat split; congruence.
    + right.
      destruct (mapM (mapM (get_pixel c_value)) g) as [p|e'] eqn:Hp;
        cbn [bind] in H; [discriminate|].
      inversion H; subst e'.
      destruct (mapM_Raise _ _ Hp) as (row & Hrow & Hraise).
      destruct (mapM_Raise _ _ Hraise) as (z & Hz & Hpix).
      exists g, z. repeat split; [|exact Hpix].
      apply in_concat. exists row. split; assumption.
  - left. congruence.
Qed.

(** X9.  Every entry of [pixels] of a [Julia] object that was built is an
    integer between 0 and 255, the 8-bit range of the docstring of
    [get_pixel]. *)
Theorem Julia_pixels_range (c_value centre : C) (extent : E) (resolution : Z)
        (J : Julia) :
  Julia_init complex_grid c_value centre extent resolution = Ok J ->
  forall row v, In row (pixels J) -> In v row -> (0 <= v <= 255)%Z.
Proof.
  unfold Julia_init, vectorize. intros H row v Hrow Hv.
  destruct (complex_grid centre extent resolution) as [g|e]; cbn [bind] in H; [|discriminate].
  destruct (size g) as [|n]; cbn [bind] in H; [discriminate|].
  destruct (mapM (mapM (get_pixel c_value)) g) as [p|e] eqn:Hp;
    cbn [bind] in H; [|discriminate].
  inversion H; subst J; cbn [pixels] in Hrow.
  destruct (@mapM_values _ _ _ _ _ _ Hp Hrow) as (zs & _ & Hzs).
  destruct (@mapM_values _ _ _ _ _ _ Hzs Hv) as (z & _ & Hz).
  destruct (get_pixel_cases c_value z)
    as [(k & Hk & _ & Hr) | [(k & e & _ & _ & _ & Hr) | (_ & Hr)]];
    rewrite Hr in Hz; inversion Hz; subst; lia.
Qed.

End Construction.

(** ** The two number types, again *)

Section NumberTypes.

(** X10.  With [int] arguments [get_pixel] always returns, and an integer
    between 0 and 255: [abs] of an [int] does not raise. *)
Theorem get_pixel_int_returns (c z0 : Z) :
  exists n : Z, get_pixel c z0 = Ok n /\ (0 <= n <= 255)%Z.
Proof.
  destruct (get_pixel_cases c z0)
    as [(k & Hk & _ & Hr) | [(k & e & _ & _ & Hat & _) | (_ & Hr)]].
  - exists (Z.of_nat k). split; [exact Hr | lia].
  - discriminate Hat.
  - exists 255%Z. split; [exact Hr | lia].
Qed.

Local Open Scope Q_scope.

Lemma Qle_bool_false (x y : Q) : Qle_bool x y = false -> y < x.
Proof.
  intros H. apply Qnot_le_lt. intros Hle.
  apply Qle_bool_iff in Hle. congruence.
Qed.

(** Conjugation of complex numbers and the loop. *)
Lemma PyComplex_abs_conj (z : complex) : abs_ge_2 (conj z) = abs_ge_2 z.
Proof.
  cbn [abs_ge_2 PyComplex]. unfold norm2, conj. cbn [fst snd].
  rewrite Qmult_opp_opp_eq. reflexivity.
Qed.

Lemma PyComplex_quad_conj (z c : complex) :
  quad (conj z) (conj c) = conj (quad z c).
Proof.
  cbn [quad PyComplex]. unfold cred, cadd, cmul, conj. cbn [fst snd].
  rewrite Qmult_opp_opp_eq. f_equal.
  rewrite <- Qred_opp. apply Qred_complete. ring.
Qed.

End NumberTypes.

(** ** The extent of the figure *)

Section Figure.

Local Open Scope Q_scope.

Lemma cle_iff (z w : complex) :
  cle z w = true <-> fst z < fst w \/ (fst z == fst w /\ snd z <= snd w).
Proof.
  unfold cle. rewrite orb_true_iff, andb_true_iff, negb_true_iff.
  rewrite Qeq_bool_iff, Qle_bool_iff. split.
  - intros [H | H]; [left; now apply Qle_bool_false | right; exact H].
  - intros [H | H]; [left | right; exact H].
    destruct (Qle_bool (fst w) (fst z)) eqn:Hb; [|reflexivity].
    apply Qle_bool_iff in Hb. apply Qle_not_lt in Hb. contradiction.
Qed.

Lemma cle_refl (z : complex) : cle z z = true.
Proof. apply cle_iff. right. split; [reflexivity | apply Qle_refl]. Qed.

Lemma cle_total (z w : complex) : cle z w = false -> cle w z = true.
Proof.
  intros H. apply cle_iff.
  destruct (Q_dec (fst w) (fst z)) as [[Hlt | Hgt] | Heq].
  - now left.
  - assert (cle z w = true) by (apply cle_iff; now left). congruence.
  - right. split; [exact Heq|].
    destruct (Qlt_le_dec (snd z) (snd w)) as [Hlt | Hle]; [|exact Hle].
    assert (cle z w = true).
    { apply cle_iff. right. split; [now symmetry | now apply Qlt_le_weak]. }
    congruence.
Qed.

Lemma cle_trans (x y z : complex) :
  cle x y = true -> cle y z = true -> cle x z = true.
Proof.
  rewrite !cle_iff. intros [H1 | [H1 H1']] [H2 | [H2 H2']].
  - left. lra.
  - left. lra.
  - left. lra.
  - right. split; lra.
Qed.

Lemma cle_fst (z w : complex) : cle z w = true -> fst z <= fst w.
Proof. rewrite cle_iff. intros [H | [H _]]; lra. Qed.

(** The reductions return a least and a greatest element. *)
Lemma fold_cminimum (zs : list complex) (z : complex) :
  In (fold_left cminimum zs z) (z :: zs) /\
  forall w, In w (z :: zs) -> cle (fold_left cminimum zs z) w = true.
Proof.
  revert z. induction zs as [|y zs IH]; intros z; cbn [fold_left].
  - split; [now left|]. intros w [<- | []]. apply cle_refl.
  - destruct (IH (cminimum z y)) as [Hin Hle].
    assert (Hz : cle (cminimum z y) z = true).
    { unfold cminimum. destruct (cle z y) eqn:Hb; [apply cle_refl | now apply cle_total]. }
    assert (Hy : cle (cminimum z y) y = true).
    { unfold cminimum. destruct (cle z y) eqn:Hb; [exact Hb | apply cle_refl]. }
    split.
    + destruct Hin as [Hin | Hin]; [|right; right; exact Hin].
      rewrite <- Hin. unfold cminimum. destruct (cle z y); [now left | right; now left].
    + intros w [<- | [<- | Hw]].
      * eapply cle_trans; [|exact Hz]. apply Hle. now left.
      * eapply cle_trans; [|exact Hy]. apply Hle. now left.
      * apply Hle. now right.
Qed.

Lemma fold_cmaximum (zs : list complex) (z : complex) :
  In (fold_left cmaximum zs z) (z :: zs) /\
  forall w, In w (z :: zs) -> cle w (fold_left cmaximum zs z) = true.
Proof.
  revert z. induction zs as [|y zs IH]; intros z; cbn [fold_left].
  - split; [now left|]. intros w [<- | []]. apply cle_refl.
  - destruct (IH (cmaximum z y)) as [Hin Hle].
    assert (Hz : cle z (cmaximum z y) = true).
    { unfold cmaximum. destruct (cle y z) eqn:Hb; [apply cle_refl | now apply cle_total]. }
    assert (Hy : cle y (cmaximum z y) = true).
    { unfold cmaximum. destruct (cle y z) eqn:Hb; [exact Hb | apply cle_refl]. }
    split.
    + destruct Hin as [Hin | Hin]; [|right; right; exact Hin].
      rewrite <- Hin. unfold cmaximum. destruct (cle y z); [now left | right; now left].
    + intros w [<- | [<- | Hw]].
      * eapply cle_trans; [exact Hz|]. apply Hle. now left.
      * eapply cle_trans; [exact Hy|]. apply Hle. now left.
      * apply Hle. now right.
Qed.

Lemma amin_spec (g : list (list complex)) :
  concat g <> [] ->
  exists lo, amin g = Ok lo /\ In lo (concat g) /\
    forall w, In w (concat g) -> cle lo w = true.
Proof.
  unfold amin. destruct (concat g) as [|z zs]; [congruence|]. intros _.
  eexists. split; [reflexivity|]. apply fold_cminimum.
Qed.

Lemma amax_spec (g : list (list complex)) :
  concat g <> [] ->
  exists hi, amax g = Ok hi /\ In hi (concat g) /\
    forall w, In w (concat g) -> cle w hi = true.
Proof.
  unfold amax. destruct (concat g) as [|z zs]; [congruence|]. intros _.
  eexists. split; [reflexivity|]. apply fold_cmaximum.
Qed.

(** A grid that went through the construction has a point. *)
Lemma Julia_init_grid (E : Type)
      (complex_grid : complex -> E -> Z -> result (list (list complex)))
      (c_value centre : complex) (extent : E) (resolution : Z) (J : Julia) :
  Julia_init complex_grid c_value centre extent resolution = Ok J ->
  complex_grid centre extent resolution = Ok (grid J) /\ concat (grid J) <> [].
Proof.
  unfold Julia_init, vectorize. intros H.
  destruct (complex_grid centre extent resolution) as [g|e]; cbn [bind] in H; [|discriminate].
  destruct (size g) as [|n] eqn:Hsize; cbn [bind] in H; [discriminate|].
  destruct (mapM (mapM (get_pixel c_value)) g) as [p|e]; cbn [bind] in H; [|discriminate].
  inversion H; subst J; cbn [grid]. split; [reflexivity|].
  intros Hnil. unfold size in Hsize. rewrite Hnil in Hsize. discriminate.
Qed.

(** X12.  For a [Julia] object that was built, whatever the grid generator,
    [get_figure] finds a minimum and a maximum of the grid, and the left and
    right ends of the extent it hands to [imshow] are the least and the
    largest real part in the grid; the bottom and the top are imaginary parts
    of points of the grid. *)
Theorem figure_extent_real_bounds (E : Type)
        (complex_grid : complex -> E -> Z -> result (list (list complex)))
        (c_value centre : complex) (extent : E) (resolution : Z) (J : Julia) :
  Julia_init complex_grid c_value centre extent resolution = Ok J ->
  exists left right bottom top,
    figure_extent J = Ok (left, right, bottom, top) /\
    is_min left (reals (grid J)) /\ is_max right (reals (grid J)) /\
    In bottom (imags (grid J)) /\ In top (imags (grid J)).
Proof.
  intros H. apply Julia_init_grid in H. destruct H as [_ Hne].
  destruct (@amin_spec _ Hne) as (lo & Hlo & Hlo_in & Hlo_le).
  destruct (@amax_spec _ Hne) as (hi & Hhi & Hhi_in & Hhi_le).
  exists (fst lo), (fst hi), (snd lo), (snd hi).
  unfold figure_extent. rewrite Hlo, Hhi. cbn [bind].
  split; [reflexivity|]. unfold is_min, is_max, reals, imags.
  repeat split.
  - exists (fst lo). split; [now apply in_map | reflexivity].
  - intros x Hx. apply in_map_iff in Hx. destruct Hx as (w & <- & Hw).
    apply cle_fst. now apply Hlo_le.
  - exists (fst hi). split; [now apply in_map | reflexivity].
  - intros x Hx. apply in_map_iff in Hx. destruct Hx as (w & <- & Hw).
    apply cle_fst. now apply Hhi_le.
  - now apply in_map.
  - now apply in_map.
Qed.

(** The least and the greatest point of a mesh are two of its corners. *)
Lemma meshgrid_least (xs ys : list Q) (mx my : Q) (lo : complex) :
  is_min mx xs -> is_min my ys ->
  In lo (concat (meshgrid xs ys)) ->
  (forall w, In w (concat (meshgrid xs ys)) -> cle lo w = true) ->
  fst lo == mx /\ snd lo == my.
Proof.
  intros [(a & Ha & Ea) Hx] [(b & Hb & Eb) Hy] Hin Hle.
  apply In_meshgrid in Hin. destruct Hin as [Hlx Hly].
  assert (H1 : cle lo (a, snd lo) = true).
  { apply Hle. apply In_meshgrid. now split. }
  assert (H2 : cle lo (fst lo, b) = true).
  { apply Hle. apply In_meshgrid. now split. }
  apply cle_fst in H1. apply cle_iff in H2. cbn [fst snd] in *.
  pose proof (Hx _ Hlx). pose proof (Hy _ Hly).
  split; [lra|]. destruct H2 as [H2 | [_ H2]]; lra.
Qed.

Lemma meshgrid_greatest (xs ys : list Q) (mx my : Q) (hi : complex) :
  is_max mx xs -> is_max my ys ->
  In hi (concat (meshgrid xs ys)) ->
  (forall w, In w (concat (meshgrid xs ys)) -> cle w hi = true) ->
  fst hi == mx /\ snd hi == my.
Proof.
  intros [(a & Ha & Ea) Hx] [(b & Hb & Eb) Hy] Hin Hle.
  apply In_meshgrid in Hin. destruct Hin as [Hlx Hly].
  assert (H1 : cle (a, snd hi) hi = true).
  { apply Hle. apply In_meshgrid. now split. }
  assert (H2 : cle (fst hi, b) hi = true).
  { apply Hle. apply In_meshgrid. now split. }
  apply cle_fst in H1. apply cle_iff in H2. cbn [fst snd] in *.
  pose proof (Hx _ Hlx). pose proof (Hy _ Hly).
  split; [lra|]. destruct H2 as [H2 | [_ H2]]; lra.
Qed.

(** X13.  For a [Julia] object built on the grid generator with
    [resolution >= 2] and [extent > 0], the extent of the figure is the
    square that was asked for: left and right are
    [centre.real -/+ extent/2], bottom and top [centre.imag -/+ extent/2]. *)
Theorem figure_extent_square (c_value centre : complex) (extent : Q)
        (resolution : Z) (J : Julia) :
  (2 <= resolution)%Z -> 0 < extent ->
  Julia_new c_value centre extent resolution = Ok J ->
  exists left right bottom top,
    figure_extent J = Ok (left, right, bottom, top) /\
    left == fst centre - extent / 2 /\ right == fst centre + extent / 2 /\
    bottom == snd centre - extent / 2 /\ top == snd centre + extent / 2.
Proof.
  intros Hres Hext H. apply Julia_init_grid in H. destruct H as [Hg Hne].
  rewrite (@build_grid_valid centre extent resolution) in Hg by (lia || exact Hext).
  inversion Hg as [Hgrid]. clear Hg.
  assert (Hn : (2 <= Z.to_nat resolution)%nat) by lia.
  assert (Hh : 0 <= extent / 2).
  { unfold Qdiv. apply Qmult_le_0_compat; [lra | discriminate]. }
  set (h := extent / 2) in *.
  assert (Hx : fst centre - h <= fst centre + h) by lra.
  assert (Hy : snd centre - h <= snd centre + h) by lra.
  destruct (@amin_spec _ Hne) as (lo & Hlo & Hlo_in & Hlo_le).
  destruct (@amax_spec _ Hne) as (hi & Hhi & Hhi_in & Hhi_le).
  rewrite <- Hgrid in Hlo_in, Hlo_le, Hhi_in, Hhi_le.
  destruct (@meshgrid_least _ _ _ _ _ (linspace_min Hn Hx) (linspace_min Hn Hy) Hlo_in Hlo_le)
    as [Hl Hb].
  destruct (@meshgrid_greatest _ _ _ _ _ (linspace_max Hn Hx) (linspace_max Hn Hy) Hhi_in Hhi_le)
    as [Hr Ht].
  exists (fst lo), (fst hi), (snd lo), (snd hi).
  unfold figure_extent. rewrite Hlo, Hhi. cbn [bind].
  repeat split; assumption.
Qed.

End Figure.

(** ** The properties above at concrete inputs *)

Lemma get_pixel_raises_only_abs_witness :
  exists k, (k < 256)%nat /\ abs_ge_2 (orbit czero chuge k) = Raise OverflowError.
Proof.
  exact (@get_pixel_raises_only_abs _ _ czero chuge OverflowError get_pixel_chuge).
Defined.

Lemma get_pixel_eq_iff_first_escape_witness :
  get_pixel 1%Z 0%Z = Ok (Z.of_nat 2) <-> first_escape 1%Z 0%Z 2.
Proof.
  apply (@get_pixel_eq_iff_first_escape _ _ 1%Z 0%Z 2%nat). lia.
Defined.

Lemma get_pixel_step_witness :
  get_pixel 1%Z 0%Z = Ok (Z.min (1 + 1) 255).
Proof.
  apply (@get_pixel_step _ _ 1%Z 0%Z 1%Z).
  - reflexivity.
  - vm_compute. reflexivity.
Defined.

Lemma get_pixel_equivariant_witness :
  get_pixel (conj cone) (conj ci) = get_pixel cone ci.
Proof.
  apply (@get_pixel_equivariant _ _ conj cone ci).
  - exact PyComplex_abs_conj.
  - intros z. apply PyComplex_quad_conj.
Defined.

Lemma loop_invariant_reachable_witness :
  loop_invariant 1%Z 0%Z (Returned (get_pixel 1%Z 0%Z)).
Proof.
  apply (@loop_invariant_reachable _ _ 1%Z 0%Z). apply get_pixel_evaluates.
Defined.

Lemma Julia_init_raises_witness :
  build_grid czero 1 0 = Raise InvalidParameter \/
  (exists g, build_grid czero 1 0 = Ok g /\
     size g = 0%nat /\ InvalidParameter = ValueError) \/
  (exists g z, build_grid czero 1 0 = Ok g /\
     In z (concat g) /\ get_pixel czero z = Raise InvalidParameter).
Proof.
  apply (@Julia_init_raises complex PyComplex Q build_grid czero czero 1 0%Z).
  vm_compute. reflexivity.
Defined.

Lemma Julia_pixels_range_witness :
  exists J : Julia,
    Julia_new czero czero 2 2 = Ok J /\
    forall row v, In row (pixels J) -> In v row -> (0 <= v <= 255)%Z.
Proof.
  eexists. split; [vm_compute; reflexivity|].
  eapply (@Julia_pixels_range complex PyComplex Q build_grid czero czero 2 2%Z).
  vm_compute. reflexivity.
Defined.

Lemma figure_extent_real_bounds_witness :
  exists J : Julia,
    Julia_new czero czero 2 2 = Ok J /\
    exists left right bottom top,
      figure_extent J = Ok (left, right, bottom, top) /\
      is_min left (reals (grid J)) /\ is_max right (reals (grid J)) /\
      In bottom (imags (grid J)) /\ In top (imags (grid J)).
Proof.
  eexists. split; [vm_compute; reflexivity|].
  eapply (@figure_extent_real_bounds Q build_grid czero czero 2 2%Z).
  vm_compute. reflexivity.
Defined.

Lemma figure_extent_square_witness :
  exists J : Julia,
    Julia_new czero czero 2 2 = Ok J /\
    exists left right bottom top,
      figure_extent J = Ok (left, right, bottom, top) /\
      left == fst czero - 2 / 2 /\ right == fst czero + 2 / 2 /\
      bottom == snd czero - 2 / 2 /\ top == snd czero + 2 / 2.
Proof.
  eexists. split; [vm_compute; reflexivity|].
  eapply (@figure_extent_square czero czero 2 2%Z).
  - lia.
  - reflexivity.
  - vm_compute. reflexivity.
Defined.
